(** * The meetup-events site: data store, poller and top-three view

    A shallow embedding of the Go packages [data] (the event store, the
    poller and the fetcher) and [ui] (the selection of the events shown per
    meetup), with the theorems that settle the specification's claims about
    them.

    Conventions of the embedding.
    - A Go slice is a window on a backing array: [slice A] keeps the visible
      elements and the elements between length and capacity.
    - A [map[string][]Event] is a [gmap string (slice Event)]; the nil map
      is [None].
    - A Go pair [(T, error)] is a [result T].
    - The process is a state-and-exit monad: [log.Fatal] leaves it.  The
      network is an oracle indexed by the number of requests already made,
      so a source may answer differently from one poll cycle to the next.
    - Calls into the Go standard library ([sort.Slice], [time.Format]) are
      modelled by their documented behaviour, apart from the package code.
    - The mutex of [Store] is elided: every method that locks it unlocks it
      on return, and the embedding is sequential. *)

From Stdlib Require Import ZArith Ascii String Lia.
From stdpp Require Import gmap strings list sorting.

(** ** Go values used by both packages *)

Module Go.

(** An [error] value is represented by its message. *)
Definition error := string.

(** A call returning [(T, error)]. *)
Inductive result (T : Type) : Type :=
| Ok (v : T)
| Err (err : error).
Arguments Ok {T} v.
Arguments Err {T} err.

(** A slice [s]: [elems s] are [s[0] .. s[len(s)-1]], [spare s] are the
    cells of the backing array from [len(s)] up to [cap(s)].  The nil slice
    and the empty slice of capacity zero are both [Slice [] []]. *)
Record slice (A : Type) : Type := Slice { elems : list A; spare : list A }.
Arguments Slice {A} elems spare.
Arguments elems {A} s.
Arguments spare {A} s.

Definition len {A} (s : slice A) : nat := length (elems s).
Definition cap {A} (s : slice A) : nat := length (elems s) + length (spare s).

(** The run-time panics the packages can raise. *)
Inductive panic_value : Type :=
| SliceBoundsOutOfRange (high capacity : nat).

Inductive runtime (T : Type) : Type :=
| Value (v : T)
| Panic (p : panic_value).
Arguments Value {T} v.
Arguments Panic {T} p.

(** The first [high] cells of the backing array of [s] as a slice. *)
Definition window {A} (s : slice A) (high : nat) : slice A :=
  Slice (take high (elems s ++ spare s)) (drop high (elems s ++ spare s)).

(** [s[0:high]]: the bound is checked against the capacity, not the
    length; the new slice shares the backing array. *)
Definition reslice_to {A} (s : slice A) (high : nat) : runtime (slice A) :=
  if decide (high ≤ cap s)
  then Value (window s high)
  else Panic (SliceBoundsOutOfRange high (cap s)).

(** [fmt.Sprintf] for formats whose only verbs are [%s]. *)
Fixpoint Sprintf (format : string) (args : list string) : string :=
  match format with
  | String "%" (String "s" rest) =>
      match args with
      | a :: args' => a +:+ Sprintf rest args'
      | [] => "%!s(MISSING)" +:+ Sprintf rest []
      end
  | String c rest => String c (Sprintf rest args)
  | EmptyString => EmptyString
  end.

End Go.

(** ** Package [sort]: the contract of [sort.Slice] *)

Module GoSort.

(** The requirement on the [less] argument: a strict weak ordering. *)
Record StrictWeakOrder {A} (less : A → A → bool) : Prop := {
  less_asym a b : less a b = true → less b a = false;
  less_compl_trans a b c :
    less b a = false → less c b = false → less c a = false
}.

(** [x] precedes [y] in a sorted slice when [y] is not less than [x]. *)
Definition not_after {A} (less : A → A → bool) (x y : A) : Prop :=
  less y x = false.

(** What the documentation of [sort.Slice] promises: the slice is
    rearranged (same elements) into an order sorted by [less].  It says
    that the sort is not guaranteed to be stable, so nothing is promised
    about the relative order of elements neither of which is less than the
    other. *)
Class Sorter (A : Type) : Type := {
  sort_by : (A → A → bool) → list A → list A;
  sort_by_perm less l : sort_by less l ≡ₚ l;
  sort_by_sorted less l :
    StrictWeakOrder less → Sorted (not_after less) (sort_by less l)
}.

(** [sort.Slice(v, less)] sorts the visible elements of [v] in place and
    leaves the rest of the backing array alone. *)
Definition Slice `{Sorter A} (v : Go.slice A) (less : A → A → bool)
  : Go.slice A :=
  Go.Slice (sort_by less (Go.elems v)) (Go.spare v).

(** Two sorters meeting the contract.  Both are insertion sorts; they
    differ in where an element goes among the elements it ties with. *)
Section Insertion.
Context {A : Type} (less : A → A → bool).

(** Insert [x] before the first element that is not less than it. *)
Fixpoint insert_first (x : A) (l : list A) : list A :=
  match l with
  | [] => [x]
  | y :: l' => if less y x then y :: insert_first x l' else x :: l
  end.

(** Insert [x] before the first element it is less than. *)
Fixpoint insert_last (x : A) (l : list A) : list A :=
  match l with
  | [] => [x]
  | y :: l' => if less x y then x :: l else y :: insert_last x l'
  end.

Definition insertion_sort (l : list A) : list A :=
  foldr insert_first [] l.

Definition insertion_sort_ties_reversed (l : list A) : list A :=
  foldr insert_last [] l.

End Insertion.

End GoSort.

(** ** Package [time]: [time.Unix] and [Time.Format] with [time.RFC1123] *)

Module GoTime.
Local Open Scope Z_scope.

(** The zone in force at an instant: its abbreviation and its offset east
    of UTC, in seconds. *)
Record zone : Type := Zone { abbreviation : string; offset : Z }.

(** A [*time.Location] gives the zone in force at each Unix time. *)
Definition Location : Type := Z → zone.

Definition UTC : Location := λ _, Zone "UTC" 0.

(** A [time.Time]: seconds since the Unix epoch and nanoseconds within the
    second. *)
Record Time : Type := { unix_sec : Z; unix_nsec : Z }.

(** [time.Unix(sec, nsec)]: nanoseconds outside [0, 1e9) carry over. *)
Definition Unix (sec nsec : Z) : Time :=
  {| unix_sec := sec + nsec `div` 1000000000;
     unix_nsec := nsec `mod` 1000000000 |}.

Record date : Type := Date { year : Z; month : Z; day : Z }.

(** The proleptic Gregorian date of a day counted from 1970-01-01. *)
Definition civil (days : Z) : date :=
  let z := days + 719468 in
  let era := z `div` 146097 in
  let doe := z - era * 146097 in
  let yoe := (doe - doe `div` 1460 + doe `div` 36524 - doe `div` 146096)
               `div` 365 in
  let doy := doe - (365 * yoe + yoe `div` 4 - yoe `div` 100) in
  let mp := (5 * doy + 2) `div` 153 in
  let d := doy - (153 * mp + 2) `div` 5 + 1 in
  let m := if decide (mp < 10) then mp + 3 else mp - 9 in
  Date (if decide (m ≤ 2) then yoe + era * 400 + 1 else yoe + era * 400) m d.

Definition weekday_name (days : Z) : string :=
  nth (Z.to_nat ((days + 4) `mod` 7))
      ["Sun"; "Mon"; "Tue"; "Wed"; "Thu"; "Fri"; "Sat"] "".

Definition month_name (m : Z) : string :=
  nth (Z.to_nat (m - 1))
      ["Jan"; "Feb"; "Mar"; "Apr"; "May"; "Jun";
       "Jul"; "Aug"; "Sep"; "Oct"; "Nov"; "Dec"] "".

(** Decimal digits of a natural number, least significant digit first
    in the recursion, with [fuel] bounding the number of digits. *)
Fixpoint digits (fuel : nat) (n : Z) (acc : string) : string :=
  match fuel with
  | O => acc
  | S fuel' =>
      let acc' := String (ascii_of_nat (48 + Z.to_nat (n `mod` 10))) acc in
      if decide (n < 10) then acc' else digits fuel' (n `div` 10) acc'
  end.

Definition decimal (n : Z) : string := digits 20 n "".

Fixpoint zeros (n : nat) : string :=
  match n with O => "" | S n' => String "0" (zeros n') end.

(** The formatter's [appendInt]: sign, then digits padded with zeros to
    [width]. *)
Definition appendInt (x : Z) (width : nat) : string :=
  let d := decimal (Z.abs x) in
  (if decide (x < 0) then "-" else "")
    +:+ zeros (width - String.length d) +:+ d.

(** [t.In(loc).Format(time.RFC1123)], layout
    ["Mon, 02 Jan 2006 15:04:05 MST"], for a zone that has an
    abbreviation. *)
Definition Format_RFC1123 (loc : Location) (t : Time) : string :=
  let z := loc (unix_sec t) in
  let wall := unix_sec t + offset z in
  let days := wall `div` 86400 in
  let secs := wall `mod` 86400 in
  let dt := civil days in
  weekday_name days +:+ ", " +:+ appendInt (day dt) 2 +:+ " "
    +:+ month_name (month dt) +:+ " " +:+ appendInt (year dt) 4 +:+ " "
    +:+ appendInt (secs `div` 3600) 2 +:+ ":"
    +:+ appendInt ((secs `mod` 3600) `div` 60) 2 +:+ ":"
    +:+ appendInt (secs `mod` 60) 2 +:+ " " +:+ abbreviation z.

End GoTime.

(** ** Package [data] *)

Module Data.
Import Go.

(** *** Events and integers *)

(** [int64] values are integers in the range below; [wrap64] is the
    two's-complement wrap-around of a result that leaves it. *)
Definition int64_range (z : Z) : Prop := (- 2 ^ 63 ≤ z < 2 ^ 63)%Z.

Definition wrap64 (z : Z) : Z := ((z + 2 ^ 63) `mod` 2 ^ 64 - 2 ^ 63)%Z.

(** Go's [/] on integers truncates toward zero. *)
Definition div64 (x y : Z) : Z := wrap64 (x `quot` y).

(** [type Event struct]. *)
Record Event : Type := { ID : string; Name : string; Time : Z }.

Global Instance Event_eq_dec : EqDecision Event.
Proof. solve_decision. Defined.

Abbreviation EventMap := (gmap string (slice Event)).

(** What a map reads as: the nil map ([None]) has no entry. *)
Definition entries (m : option EventMap) : EventMap := default ∅ m.

(** [type Store struct]: the polling interval is a [time.Duration], a
    number of nanoseconds; [eventCache = None] is the nil map. *)
Record Store : Type := {
  pollingInterval : Z;
  eventCache : option EventMap
}.

Definition apiTemplate : string :=
  "https://api.meetup.com/%s/events?status=upcoming".

(** The initial value of the package variable [meetupNames]. *)
Definition meetupNames_init : list string :=
  ["Boulder-Gophers";
   "Denver-Go-Language-User-Group";
   "Denver-Go-Programming-Language-Meetup"].

(** *** The process *)

(** What the process does to the world outside the function at hand, in
    the order it does it: requests, log lines, installations of a new
    cache, sleeps. *)
Inductive Action : Type :=
| Get (url : string)
| Printf (line : string)
| Fatal (line : string)
| Install (cache : option EventMap)
| Sleep (d : Z).

Record Proc : Type := { requests : nat; history : list Action }.

Definition record (a : Action) (p : Proc) : Proc :=
  {| requests := requests p; history := history p ++ [a] |}.

(** A call either returns, or the process has exited with a status. *)
Inductive Outcome (T : Type) : Type :=
| Ret (v : T) (p : Proc)
| Exit (status : Z) (p : Proc).
Arguments Ret {T} v p.
Arguments Exit {T} status p.

Definition M (T : Type) : Type := Proc → Outcome T.

Global Instance M_ret : MRet M := λ T v p, Ret v p.

Global Instance M_bind : MBind M := λ T U k m p,
  match m p with
  | Ret v p' => k v p'
  | Exit status p' => Exit status p'
  end.

(** What [json.NewDecoder(resp.Body).Decode(&data)] makes of a response
    body: the decoded slice (with the capacity the decoder gave it), or a
    decoding error. *)
Inductive Body : Type :=
| Json (data : slice Event)
| Malformed (err : error).

Definition Decode (b : Body) : result (slice Event) :=
  match b with
  | Json data => Ok data
  | Malformed err => Err err
  end.

(** The network: the answer to the [n]-th request of the process, by
    URL.  [Err] is a transport-level failure of [http.Get]. *)
Definition Network : Type := nat → string → result Body.

Definition log_Printf (format : string) (args : list string) : M unit :=
  λ p, Ret tt (record (Printf (Sprintf format args)) p).

(** [log.Fatal] prints and calls [os.Exit(1)]. *)
Definition log_Fatal {T} (err : error) : M T :=
  λ p, Exit 1 (record (Fatal err) p).

Definition time_Sleep (d : Z) : M unit :=
  λ p, Ret tt (record (Sleep d) p).

Section Package.
Context (net : Network) `{!GoSort.Sorter Event}.

(** The package variable [meetupNames]. *)
Variable meetupNames : list string.

Definition http_Get (url : string) : M (result Body) :=
  λ p, Ret (net (requests p) url)
           {| requests := S (requests p);
              history := history p ++ [Get url] |}.

(** [func NewStore(i time.Duration) *Store] *)
Definition NewStore (i : Z) : Store :=
  {| pollingInterval := i; eventCache := None |}.

(** [func events(name string) ([]Event, error)].  The deferred
    [resp.Body.Close()] touches nothing that is modelled. *)
Definition events (name : string) : M (result (slice Event)) :=
  r ← http_Get (Sprintf apiTemplate [name]);
  match r with
  | Err err => log_Fatal err
  | Ok body =>
      match Decode body with
      | Err err => mret (Err err)
      | Ok data => mret (Ok data)
      end
  end.

(** [func (s *Store) updateCache(events map[string][]Event)].  The
    assignment to [s.eventCache] is noted in the history. *)
Definition updateCache (s : Store) (events : option EventMap) : M Store :=
  λ p, Ret {| pollingInterval := pollingInterval s; eventCache := events |}
           (record (Install events) p).

(** The first loop of [poll], from the source named first in [names]. *)
Fixpoint poll_range (names : list string) (all : EventMap) : M EventMap :=
  match names with
  | [] => mret all
  | meetup :: names' =>
      r ← events meetup;
      match r with
      | Err err =>
          log_Printf "error fetching events for %s: %s" [meetup; err];;
          poll_range names' all
      | Ok eds => poll_range names' (<[meetup := eds]> all)
      end
  end.

(** The comparison handed to [sort.Slice]. *)
Definition less (a b : Event) : bool := bool_decide (Time a < Time b)%Z.

(** [func (s *Store) poll() map[string][]Event].  The second loop sorts
    every value of the map in place; the values do not share backing
    arrays, so the order in which the map is ranged over is immaterial. *)
Definition poll (s : Store) : M EventMap :=
  all ← poll_range meetupNames ∅;
  mret ((λ v, GoSort.Slice v less) <$> all).

(** [func (s *Store) AllEvents() map[string][]Event] *)
Definition AllEvents (s : Store) : option EventMap := eventCache s.

(** One turn of the loop of [Poll]. *)
Definition Poll_body (s : Store) : M Store :=
  events ← poll s;
  s' ← updateCache s (Some events);
  time_Sleep (pollingInterval s');;
  mret s'.

(** [func (s *Store) Poll()]: the loop never ends; [Poll n] is its
    first [n] turns. *)
Fixpoint Poll (n : nat) (s : Store) : M Store :=
  match n with
  | O => mret s
  | S n' => s' ← Poll_body s; Poll n' s'
  end.

End Package.

(** [func (e Event) HumanTime() string], in the location [time.Local]. *)
Definition HumanTime (Local : GoTime.Location) (e : Event) : string :=
  GoTime.Format_RFC1123 Local (GoTime.Unix (div64 (Time e) 1000) 0).

End Data.


(** ** Package [ui] *)

Module Ui.
Import Go Data.

(** [type indexPage struct] *)
Record indexPage : Type := { events : option EventMap }.

(** The key/value pairs visited by a [range] over a map; none for the nil
    map.  Go leaves the order of the visit unspecified; [map_to_list] is one
    such order, and the facts about [UpcomingEvents_loop] below hold for
    every order. *)
Definition range (m : option EventMap) : list (string * slice Event) :=
  map_to_list (entries m).

(** The loop of [UpcomingEvents] over the pairs still to visit:
    [threeEvents[k] = v[0:3]]. *)
Fixpoint UpcomingEvents_loop (pairs : list (string * slice Event))
    (threeEvents : EventMap) : runtime EventMap :=
  match pairs with
  | [] => Value threeEvents
  | (k, v) :: pairs' =>
      match reslice_to v 3 with
      | Value v3 => UpcomingEvents_loop pairs' (<[k := v3]> threeEvents)
      | Panic e => Panic e
      end
  end.

(** [func (p *indexPage) UpcomingEvents() map[string][]data.Event] *)
Definition UpcomingEvents (p : indexPage) : runtime EventMap :=
  UpcomingEvents_loop (range (events p)) ∅.

End Ui.

(** ** Vocabulary of the statements about a poll cycle *)

Module Cycle.
Import Go Data.

(** The URL requested for a source. *)
Definition url (name : string) : string := Sprintf apiTemplate [name].

Section Cycle.
Context (net : Network) `{!GoSort.Sorter Event}.

(** No request of the cycle that fetches [names] from request number [k]
    on fails at transport level: every call of [events] returns. *)
Definition all_return (names : list string) (k : nat) : Prop :=
  ∀ i name, names !! i = Some name → ∃ body, net (k + i) (url name) = Ok body.

(** The map the first loop of [poll] has built when every call of [events]
    has returned. *)
Fixpoint gathered (names : list string) (k : nat) (all : EventMap)
  : EventMap :=
  match names with
  | [] => all
  | meetup :: names' =>
      match net k (url meetup) with
      | Ok (Json data) => gathered names' (S k) (<[meetup := data]> all)
      | _ => gathered names' (S k) all
      end
  end.

(** What that loop has added to the history. *)
Fixpoint fetch_log (names : list string) (k : nat) : list Action :=
  match names with
  | [] => []
  | meetup :: names' =>
      Get (url meetup) ::
      match net k (url meetup) with
      | Ok (Malformed err) =>
          [Printf (Sprintf "error fetching events for %s: %s" [meetup; err])]
      | _ => []
      end ++ fetch_log names' (S k)
  end.

(** The Snapshot of the cycle that starts at request number [k]. *)
Definition snapshot (names : list string) (k : nat) : EventMap :=
  (λ v, GoSort.Slice v less) <$> gathered names k ∅.

End Cycle.

(** The steps of the poll loop seen in a history: log lines left out. *)
Inductive Step : Type :=
| Fetch (url : string)
| Replace (cache : option EventMap)
| Wait (d : Z).

Definition step_of (a : Action) : option Step :=
  match a with
  | Get u => Some (Fetch u)
  | Install cache => Some (Replace cache)
  | Sleep d => Some (Wait d)
  | Printf _ | Fatal _ => None
  end.

Definition steps (h : list Action) : list Step := omap step_of h.

(** The steps of one turn of the loop of [Poll]. *)
Definition turn (names : list string) (snap : EventMap) (d : Z) : list Step :=
  (Fetch ∘ url <$> names) ++ [Replace (Some snap); Wait d].

(** The events of [sorted] that occur at the same time are in the order
    they have in [fetched]. *)
Definition ties_in_fetch_order (fetched sorted : list Event) : Prop :=
  ∀ t : Z, filter (λ e, Time e = t) sorted = filter (λ e, Time e = t) fetched.

(** Non-decreasing occurrence time. *)
Definition by_time (a b : Event) : Prop := (Time a ≤ Time b)%Z.

End Cycle.

(** ** Concrete processes, networks and events used in examples *)

Module Scenario.
Import Go Data Cycle.

(** A process that has done nothing yet. *)
Definition startup : Proc := {| requests := 0; history := [] |}.

Definition event (id : string) (t : Z) : Event :=
  {| ID := id; Name := "Go meetup"; Time := t |}.

(** Source ["A"] answers with two events, latest first; every other source
    answers with a body that does not decode. *)
Definition net_A_only : Network := λ _ u,
  if decide (u = url "A")
  then Ok (Json (Slice [event "1" 300; event "2" 100] []))
  else Ok (Malformed "unexpected end of JSON input").


(** Source ["A"] answers as in [net_A_only]; the request for any other
    source fails at transport level. *)
Definition net_B_down : Network := λ _ u,
  if decide (u = url "A")
  then Ok (Json (Slice [event "1" 300; event "2" 100] []))
  else Err "dial tcp: connection refused".

(** No request gets through. *)
Definition net_down : Network := λ _ _, Err "dial tcp: i/o timeout".

End Scenario.

(** ** Further vocabulary: log lines, final states, more networks *)

Module Observations.
Import Go Data Cycle Scenario.

(** The lines written with [log.Printf] in a history. *)
Definition log_lines (h : list Action) : list string :=
  omap (λ a, match a with Printf line => Some line | _ => None end) h.

(** The line [poll] logs for a source whose call of [events] returned
    [err]. *)
Definition failure_line (name : string) (err : error) : string :=
  "error fetching events for " +:+ name +:+ ": " +:+ err.

(** The line logged, if any, for the request numbered [r] made for [name]. *)
Definition logged (net : Network) (request : nat * string) : option string :=
  match net request.1 (url request.2) with
  | Ok (Malformed err) => Some (failure_line request.2 err)
  | _ => None
  end.



(** Sources ["A"] and ["B"] answer with four and three events, not in
    order of time; any other source gets a body that does not decode. *)
Definition net_busy : Network := λ _ u,
  if decide (u = url "A")
  then Ok (Json (Slice [event "a1" 400; event "a2" 100;
                        event "a3" 300; event "a4" 200] []))
  else if decide (u = url "B")
  then Ok (Json (Slice [event "b1" 30; event "b2" 10; event "b3" 20]
                       [event "" 0]))
  else Ok (Malformed "invalid character '<' looking for beginning of value").

(** The network answers the first two requests and then goes down. *)
Definition net_two_then_down : Network := λ r u,
  if decide (r < 2) then net_A_only r u else Err "dial tcp: i/o timeout".

(** The first request is answered as in [net_A_only]; every later one gets
    a body that does not decode. *)
Definition net_first_only : Network := λ r u,
  if decide (r = 0) then net_A_only r u
  else Ok (Malformed "unexpected end of JSON input").


End Observations.

(** * Facts about the sorters *)

Module GoSortFacts.
Import GoSort.

Section Insertion.
Context {A : Type} (less : A → A → bool).

Lemma insert_first_perm x l : insert_first less x l ≡ₚ x :: l.
Proof.
  induction l as [|y l IH]; simpl; [done|].
  destruct (less y x); [|done].
  rewrite IH. apply Permutation_swap.
Qed.

Lemma insert_last_perm x l : insert_last less x l ≡ₚ x :: l.
Proof.
  induction l as [|y l IH]; simpl; [done|].
  destruct (less x y); [done|].
  rewrite IH. apply Permutation_swap.
Qed.

Lemma insertion_sort_perm l : insertion_sort less l ≡ₚ l.
Proof.
  induction l as [|x l IH]; simpl; [done|].
  unfold insertion_sort in IH. by rewrite insert_first_perm, IH.
Qed.

Lemma insertion_sort_ties_reversed_perm l :
  insertion_sort_ties_reversed less l ≡ₚ l.
Proof.
  induction l as [|x l IH]; simpl; [done|].
  unfold insertion_sort_ties_reversed in IH.
  by rewrite insert_last_perm, IH.
Qed.

Hypothesis swo : StrictWeakOrder less.

Lemma insert_first_sorted x l :
  Sorted (not_after less) l → Sorted (not_after less) (insert_first less x l).
Proof.
  induction l as [|y l IH]; simpl; intros Hs.
  - by repeat constructor.
  - destruct (less y x) eqn:Hyx.
    + apply Sorted_inv in Hs as [Hs Hhd].
      constructor; [by apply IH|].
      destruct l as [|z l]; simpl.
      * constructor. by apply (less_asym _ swo).
      * destruct (less z x) eqn:Hzx.
        -- inversion Hhd; subst. by constructor.
        -- constructor. by apply (less_asym _ swo).
    + constructor; [done|]. by constructor.
Qed.

Lemma insert_last_sorted x l :
  Sorted (not_after less) l → Sorted (not_after less) (insert_last less x l).
Proof.
  induction l as [|y l IH]; simpl; intros Hs.
  - by repeat constructor.
  - destruct (less x y) eqn:Hxy.
    + constructor; [done|]. constructor. by apply (less_asym _ swo).
    + apply Sorted_inv in Hs as [Hs Hhd].
      constructor; [by apply IH|].
      destruct l as [|z l]; simpl.
      * constructor. exact Hxy.
      * destruct (less x z) eqn:Hxz.
        -- constructor. exact Hxy.
        -- inversion Hhd; subst. by constructor.
Qed.

Lemma insertion_sort_sorted l : Sorted (not_after less) (insertion_sort less l).
Proof.
  induction l as [|x l IH]; simpl; [constructor|].
  by apply insert_first_sorted.
Qed.

Lemma insertion_sort_ties_reversed_sorted l :
  Sorted (not_after less) (insertion_sort_ties_reversed less l).
Proof.
  induction l as [|x l IH]; simpl; [constructor|].
  by apply insert_last_sorted.
Qed.
End Insertion.

(** A stable sorter. *)
Definition stable_sorter (A : Type) : Sorter A :=
  {| sort_by := insertion_sort;
     sort_by_perm := insertion_sort_perm;
     sort_by_sorted less l swo := insertion_sort_sorted less swo l |}.

(** A sorter that leaves tied elements in the reverse of their original
    order, as the documentation of [sort.Slice] allows. *)
Definition reversing_sorter (A : Type) : Sorter A :=
  {| sort_by := insertion_sort_ties_reversed;
     sort_by_perm := insertion_sort_ties_reversed_perm;
     sort_by_sorted less l swo :=
       insertion_sort_ties_reversed_sorted less swo l |}.


End GoSortFacts.

(** * Facts about package [data] *)

Module DataFacts.
Import Go Data Cycle.

Lemma less_swo : GoSort.StrictWeakOrder less.
Proof.
  split; unfold less; intros *.
  - rewrite bool_decide_eq_true, bool_decide_eq_false. lia.
  - rewrite !bool_decide_eq_false. lia.
Qed.

Global Instance by_time_trans : Transitive by_time.
Proof. unfold by_time. intros a b c. lia. Qed.

Lemma not_after_by_time a b : GoSort.not_after less a b ↔ by_time a b.
Proof.
  unfold GoSort.not_after, less, by_time.
  rewrite bool_decide_eq_false. lia.
Qed.

Section Package.
Context (net : Network) `{!GoSort.Sorter Event}.

Lemma bind_run {T U} (m : M T) (k : T → M U) p :
  (m ≫= k) p = match m p with
               | Ret v p' => k v p'
               | Exit status p' => Exit status p'
               end.
Proof. reflexivity. Qed.

(** One call of [events]: a transport failure ends the process, anything
    else returns what the decoder made of the body. *)
Lemma events_run name p :
  events net name p =
  match net (requests p) (url name) with
  | Ok body =>
      Ret (Decode body)
          {| requests := S (requests p);
             history := history p ++ [Get (url name)] |}
  | Err err =>
      Exit 1 {| requests := S (requests p);
                history := history p ++ [Get (url name); Fatal err] |}
  end.
Proof.
  unfold events. rewrite bind_run. unfold http_Get, url. simpl.
  destruct (net (requests p) _) as [[data|err]|err]; simpl; try done.
  unfold log_Fatal, record. simpl. by rewrite <- app_assoc.
Qed.

Lemma all_return_cons meetup names k :
  all_return net (meetup :: names) k →
  (∃ body, net k (url meetup) = Ok body) ∧ all_return net names (S k).
Proof.
  intros Hall. split.
  - specialize (Hall 0 meetup eq_refl). by rewrite Nat.add_0_r in Hall.
  - intros i name Hi. specialize (Hall (S i) name Hi).
    by rewrite Nat.add_succ_r in Hall.
Qed.

(** When every call of [events] returns, the first loop of [poll] returns
    the gathered map, after one request per source. *)
Lemma poll_range_returns names all p :
  all_return net names (requests p) →
  poll_range net names all p =
  Ret (gathered net names (requests p) all)
      {| requests := requests p + length names;
         history := history p ++ fetch_log net names (requests p) |}.
Proof.
  revert all p. induction names as [|meetup names IH]; intros all p Hall.
  - destruct p as [k h]. simpl. unfold mret, M_ret.
    by rewrite Nat.add_0_r, app_nil_r.
  - apply all_return_cons in Hall as [[body Hbody] Hall].
    cbn [poll_range gathered fetch_log]. rewrite bind_run, events_run, Hbody.
    destruct body as [data|err]; cbn [Decode].
    + rewrite IH by done. cbn [requests history length].
      f_equal. f_equal; [lia|]. by rewrite <- app_assoc.
    + rewrite bind_run. unfold log_Printf, record. cbn [requests history].
      rewrite IH by done. cbn [requests history length].
      f_equal. f_equal; [lia|]. by rewrite <- !app_assoc.
Qed.

(** Conversely, the loop returns only if every call of [events] did. *)
Lemma poll_range_all_return names all p all' p' :
  poll_range net names all p = Ret all' p' →
  all_return net names (requests p).
Proof.
  revert all p. induction names as [|meetup names IH]; intros all p Hret.
  - by intros i name ?.
  - cbn [poll_range] in Hret. rewrite bind_run, events_run in Hret.
    destruct (net (requests p) (url meetup)) as [body|err] eqn:Hnet; [|done].
    assert (all_return net names (S (requests p))) as Hrest.
    { destruct (Decode body); [by eapply IH in Hret|].
      rewrite bind_run in Hret. by eapply IH in Hret. }
    intros [|i] name Hi; simplify_eq/=.
    + rewrite Nat.add_0_r. eauto.
    + rewrite Nat.add_succ_r. by apply Hrest.
Qed.

(** A transport failure of any request of the cycle ends the process in
    the first loop of [poll], with status 1. *)
Lemma poll_range_exits names all p i name err :
  names !! i = Some name →
  net (requests p + i) (url name) = Err err →
  ∃ p', poll_range net names all p = Exit 1 p'.
Proof.
  revert all p i. induction names as [|meetup names IH]; intros all p i Hi Hnet.
  - done.
  - cbn [poll_range]. rewrite bind_run, events_run.
    destruct (net (requests p) (url meetup)) as [body|err'] eqn:Hhd; [|eauto].
    destruct i as [|i]; simplify_eq/=.
    { rewrite Nat.add_0_r in Hnet. congruence. }
    rewrite Nat.add_succ_r in Hnet.
    destruct (Decode body).
    + by eapply (IH _ {| requests := S (requests p) |}).
    + rewrite bind_run. by eapply (IH _ {| requests := S (requests p) |}).
Qed.

(** The gathered map at a source that is not polled. *)
Lemma gathered_not_polled names k all name :
  name ∉ names → gathered net names k all !! name = all !! name.
Proof.
  revert k all. induction names as [|meetup names IH]; intros k all Hnot.
  - done.
  - apply not_elem_of_cons in Hnot as [Hne Hnot]. cbn [gathered].
    destruct (net k (url meetup)) as [[data|err]|err]; rewrite IH by done;
      [by rewrite lookup_insert_ne|done..].
Qed.

(** The gathered map at a polled source: the decoded slice, or what was
    there before when the body was malformed. *)
Lemma gathered_polled names k all i name :
  NoDup names → names !! i = Some name →
  gathered net names k all !! name =
  match net (k + i) (url name) with
  | Ok (Json data) => Some data
  | _ => all !! name
  end.
Proof.
  revert k all i.
  induction names as [|meetup names IH]; intros k all i Hdup Hi; [done|].
  apply NoDup_cons in Hdup as [Hfresh Hdup]. cbn [gathered].
  destruct i as [|i]; simplify_eq/=.
  - rewrite Nat.add_0_r.
    destruct (net k (url name)) as [[data|err]|err];
      rewrite gathered_not_polled by done; [by rewrite lookup_insert_eq|done..].
  - assert (name ≠ meetup) as Hne.
    { intros ->. apply Hfresh. by eapply list_elem_of_lookup_2. }
    rewrite Nat.add_succ_r.
    destruct (net k (url meetup)) as [[data|err]|err];
      rewrite (IH (S k) _ i) by done; simpl;
      destruct (net (S (k + i)) (url name)) as [[data'|err']|err'];
      try done; by rewrite lookup_insert_ne.
Qed.

Lemma steps_app h1 h2 : steps (h1 ++ h2) = steps h1 ++ steps h2.
Proof. apply omap_app. Qed.

(** The requests of a cycle are one [Get] per source, in the order of the
    source list. *)
Lemma steps_fetch_log names k :
  steps (fetch_log net names k) = Fetch ∘ url <$> names.
Proof.
  revert k. induction names as [|meetup names IH]; intros k; [done|].
  cbn [fetch_log]. change (steps (?a :: ?l)) with (steps [a] ++ steps l).
  rewrite steps_app, IH.
  by destruct (net k (url meetup)) as [[data|err]|err].
Qed.

Section Names.
(** The package variable [meetupNames]. *)
Variable meetupNames : list string.

(** When every call of [events] returns, [poll] returns the Snapshot. *)
Lemma poll_returns s p :
  all_return net meetupNames (requests p) →
  poll net meetupNames s p =
  Ret (snapshot net meetupNames (requests p))
      {| requests := requests p + length meetupNames;
         history := history p ++ fetch_log net meetupNames (requests p) |}.
Proof.
  intros Hall. unfold poll. by rewrite bind_run, poll_range_returns.
Qed.

Lemma poll_all_return s p snap p' :
  poll net meetupNames s p = Ret snap p' →
  all_return net meetupNames (requests p).
Proof.
  unfold poll. rewrite bind_run.
  destruct (poll_range _ _ _ _) as [all p1|] eqn:Hrange; [|done].
  intros _. by eapply poll_range_all_return.
Qed.

Lemma poll_inv s p snap p' :
  poll net meetupNames s p = Ret snap p' →
  snap = snapshot net meetupNames (requests p).
Proof.
  intros Hret. pose proof (poll_all_return _ _ _ _ Hret) as Hall.
  rewrite poll_returns in Hret by done. by simplify_eq.
Qed.

Lemma Sorted_by_time l : Sorted (GoSort.not_after less) l → Sorted by_time l.
Proof.
  induction 1 as [|a l Hs IH Hhd]; constructor; [done|].
  destruct Hhd; constructor. by apply not_after_by_time.
Qed.

Lemma snapshot_lookup k name v :
  snapshot net meetupNames k !! name = Some v ↔
  ∃ data, gathered net meetupNames k ∅ !! name = Some data
          ∧ v = GoSort.Slice data less.
Proof.
  unfold snapshot. rewrite lookup_fmap, fmap_Some. naive_solver.
Qed.

(** C4. In every Snapshot that [poll] returns, the events of every source
    present are sorted by non-decreasing occurrence time. *)
Theorem poll_sorted s p snap p' :
  poll net meetupNames s p = Ret snap p' →
  ∀ name v, snap !! name = Some v → StronglySorted by_time (elems v).
Proof.
  intros Hret name v Hv. apply poll_inv in Hret as ->.
  apply snapshot_lookup in Hv as (data & _ & ->). simpl.
  apply Sorted_StronglySorted; [apply _|].
  apply Sorted_by_time, GoSort.sort_by_sorted, less_swo.
Qed.



(** A source whose body does not decode is contained: the cycle returns,
    the error is logged, and the source is absent from the Snapshot. *)
Lemma decode_failure_contained s p i name err :
  NoDup meetupNames →
  all_return net meetupNames (requests p) →
  meetupNames !! i = Some name →
  net (requests p + i) (url name) = Ok (Malformed err) →
  ∃ snap p',
    poll net meetupNames s p = Ret snap p' ∧
    snap !! name = None ∧
    Printf (Sprintf "error fetching events for %s: %s" [name; err])
      ∈ history p'.
Proof.
  intros Hdup Hall Hi Hnet. eexists _, _. split; [by apply poll_returns|].
  split.
  - unfold snapshot. by rewrite lookup_fmap, (gathered_polled _ _ _ i), Hnet.
  - cbn [history]. apply elem_of_app. right.
    clear Hdup Hall. revert i Hi Hnet. generalize (requests p) as k.
    induction meetupNames as [|meetup names IH]; intros k i Hi Hnet; [done|].
    cbn [fetch_log]. destruct i as [|i]; simplify_eq/=.
    + rewrite Nat.add_0_r in Hnet. rewrite Hnet. set_solver.
    + rewrite Nat.add_succ_r in Hnet. apply elem_of_cons. right.
      apply elem_of_app. right. by apply (IH (S k) i).
Qed.

(** A transport failure of any request of the cycle ends the process:
    [poll] does not return. *)
Lemma poll_exits s p i name err :
  meetupNames !! i = Some name →
  net (requests p + i) (url name) = Err err →
  ∃ p', poll net meetupNames s p = Exit 1 p'.
Proof.
  intros Hi Hnet.
  destruct (poll_range_exits meetupNames ∅ p i name err Hi Hnet) as [p' Hp'].
  exists p'. unfold poll. by rewrite bind_run, Hp'.
Qed.

(** One turn of the loop of [Poll] when every call of [events] returns. *)
Lemma Poll_body_run s p :
  all_return net meetupNames (requests p) →
  Poll_body net meetupNames s p =
  Ret {| pollingInterval := pollingInterval s;
         eventCache := Some (snapshot net meetupNames (requests p)) |}
      {| requests := requests p + length meetupNames;
         history :=
           history p ++ fetch_log net meetupNames (requests p)
             ++ [Install (Some (snapshot net meetupNames (requests p)));
                 Sleep (pollingInterval s)] |}.
Proof.
  intros Hall. unfold Poll_body. rewrite bind_run, poll_returns by done.
  unfold mbind, M_bind, mret, M_ret, updateCache, time_Sleep, record. simpl.
  by rewrite <- !app_assoc.
Qed.

(** C9. While the calls of [events] return, [n] turns of the loop of
    [Poll] do, turn after turn: the requests for the sources in the order
    of the source list, then the installation of the Snapshot of exactly
    those requests, then a sleep of the polling interval.  Nothing comes
    before the requests of the first turn: the steps do not begin with a
    sleep.  After the last turn the cache is the Snapshot of that turn. *)
Theorem Poll_turns n s p :
  (∀ j, j < n →
        all_return net meetupNames (requests p + j * length meetupNames)) →
  ∃ s' new,
    Poll net meetupNames n s p =
      Ret s' {| requests := requests p + n * length meetupNames;
                history := history p ++ new |} ∧
    steps new =
      mjoin ((λ j, turn meetupNames
                     (snapshot net meetupNames
                        (requests p + j * length meetupNames))
                     (pollingInterval s)) <$> seq 0 n) ∧
    (∀ d, head (steps new) ≠ Some (Wait d)) ∧
    pollingInterval s' = pollingInterval s ∧
    (∀ m, n = S m →
          AllEvents s' =
          Some (snapshot net meetupNames
                  (requests p + m * length meetupNames))).
Proof.
  revert s p. induction n as [|n IH]; intros s p Hall.
  - exists s, []. destruct p as [k h]. simpl. unfold mret, M_ret.
    rewrite Nat.add_0_r, app_nil_r. by split_and!.
  - cbn [Poll]. rewrite bind_run, Poll_body_run; last first.
    { specialize (Hall 0). rewrite Nat.add_0_r in Hall. apply Hall. lia. }
    set (s1 := {| pollingInterval := pollingInterval s |}).
    set (p1 := {| requests := requests p + length meetupNames |}).
    destruct (IH s1 p1) as (s' & new & Hrun & Hsteps & _ & Hd & Hcache).
    { intros j Hj. specialize (Hall (S j)). cbn [requests p1].
      replace (requests p + length meetupNames + j * length meetupNames)
        with (requests p + S j * length meetupNames) by lia.
      apply Hall. lia. }
    exists s'.
    exists (fetch_log net meetupNames (requests p)
            ++ [Install (Some (snapshot net meetupNames (requests p)));
                Sleep (pollingInterval s)] ++ new).
    split_and!.
    + rewrite Hrun. f_equal. cbn [requests history p1]. f_equal; [lia|].
      by rewrite <- !app_assoc.
    + rewrite !steps_app, steps_fetch_log, Hsteps.
      cbn [seq fmap list_fmap mjoin list_join]. unfold turn at 2.
      rewrite Nat.add_0_r, <- app_assoc. f_equal. f_equal.
      rewrite <- fmap_S_seq, <- list_fmap_compose. f_equal.
      apply list_fmap_ext. intros _ j _. cbn [requests p1 s1 pollingInterval].
      simpl. do 2 f_equal. lia.
    + intros d. rewrite !steps_app, steps_fetch_log.
      by destruct meetupNames.
    + by rewrite Hd.
    + intros m [= <-]. destruct n as [|n'].
      * simpl in Hrun. unfold mret, M_ret in Hrun. simplify_eq.
        by rewrite Nat.add_0_r.
      * rewrite (Hcache n' eq_refl). cbn [requests p1]. f_equal. f_equal. lia.
Qed.

End Names.



(** C7. A Store fresh from [NewStore] answers [AllEvents] with the nil
    map: a map without any entry. *)
Theorem AllEvents_NewStore i :
  AllEvents (NewStore i) = None ∧
  ∀ name, entries (AllEvents (NewStore i)) !! name = None.
Proof. split; [done|]. intros name. apply lookup_empty. Qed.

(** C8. [updateCache] returns, and [AllEvents] then answers with the very
    map that was installed. *)
Theorem updateCache_AllEvents s events p :
  ∃ s' p', updateCache s events p = Ret s' p' ∧ AllEvents s' = events.
Proof. by eexists _, _. Qed.

End Package.

(** What one source gets in the Snapshot depends on the answer to its own
    request only: two networks that answer that request alike give the
    source the same events in the same order, however the other sources
    fare. *)
Lemma snapshot_source_independent (net1 net2 : Network)
    `{!GoSort.Sorter Event} names k i name :
  NoDup names → names !! i = Some name →
  net1 (k + i) (url name) = net2 (k + i) (url name) →
  snapshot net1 names k !! name = snapshot net2 names k !! name.
Proof.
  intros Hdup Hi Hsame. unfold snapshot.
  by rewrite !lookup_fmap, !(gathered_polled _ _ _ _ i), Hsame.
Qed.

(** The stable sorter keeps ties in their original order. *)
Lemma insert_first_ties x l t :
  filter (λ e, Time e = t) (GoSort.insert_first less x l)
  = filter (λ e, Time e = t) (x :: l).
Proof.
  induction l as [|y l IH]; [done|]. cbn [GoSort.insert_first].
  unfold less at 1. case_bool_decide as Hlt; [|done].
  rewrite filter_cons, IH, !filter_cons.
  repeat case_decide; try done; lia.
Qed.

Lemma insertion_sort_ties l :
  ties_in_fetch_order l (GoSort.insertion_sort less l).
Proof.
  intros t. induction l as [|x l IH]; [done|].
  cbn [GoSort.insertion_sort foldr]. rewrite insert_first_ties, !filter_cons.
  unfold GoSort.insertion_sort in IH. by rewrite IH.
Qed.

(** So whether the events of a Snapshot that occur at one time are in fetch
    order is up to the sorter: with the stable one they are. *)
Lemma poll_ties_with_stable_sorter net names s p snap p' i name data :
  NoDup names →
  poll (H := GoSortFacts.stable_sorter Event) net names s p = Ret snap p' →
  names !! i = Some name →
  net (requests p + i) (url name) = Ok (Json data) →
  ∃ v, snap !! name = Some v ∧ ties_in_fetch_order (elems data) (elems v).
Proof.
  intros Hdup Hret Hi Hnet. apply poll_inv in Hret as ->.
  eexists. split.
  - apply snapshot_lookup. exists data. split; [|done].
    by rewrite (gathered_polled _ _ _ _ i), Hnet.
  - apply insertion_sort_ties.
Qed.

(** A quotient by 1000 needs no wrap-around. *)
Lemma div64_1000 t : int64_range t → div64 t 1000 = (t `quot` 1000)%Z.
Proof.
  unfold int64_range, div64, wrap64. intros Ht.
  assert (- 2 ^ 63 ≤ t `quot` 1000 < 2 ^ 63)%Z.
  { destruct (Z.le_gt_cases 0 t).
    - pose proof (Z.quot_pos t 1000). pose proof (Z.quot_le_upper_bound t 1000 t).
      lia.
    - pose proof (Z.quot_opp_l t 1000). pose proof (Z.quot_pos (- t) 1000).
      pose proof (Z.quot_le_upper_bound (- t) 1000 (- t)). lia. }
  rewrite Z.mod_small; lia.
Qed.

(** C10. Two events whose times have the same quotient by 1000 have the
    same display time: [HumanTime] depends on the event through that
    quotient only. *)
Theorem HumanTime_whole_second Local e1 e2 :
  (Time e1 `quot` 1000 = Time e2 `quot` 1000)%Z →
  HumanTime Local e1 = HumanTime Local e2.
Proof. unfold HumanTime, div64. by intros ->. Qed.

(** The milliseconds are dropped: an event displays as the event at the
    start of the same second (counted toward zero). *)
Lemma HumanTime_truncated Local e :
  HumanTime Local e =
  HumanTime Local {| ID := ID e; Name := Name e;
                     Time := 1000 * (Time e `quot` 1000) |}.
Proof.
  unfold HumanTime, div64. simpl. by rewrite Z.mul_comm, Z.quot_mul.
Qed.

End DataFacts.

(** * Facts about package [ui] *)

Module UiFacts.
Import Go Data Ui.

Lemma reslice_to_value {A} (v : slice A) high :
  high ≤ cap v → reslice_to v high = Value (window v high).
Proof. intros. unfold reslice_to. by rewrite decide_True. Qed.

Lemma reslice_to_panic {A} (v : slice A) high :
  cap v < high → reslice_to v high = Panic (SliceBoundsOutOfRange high (cap v)).
Proof. intros. unfold reslice_to. rewrite decide_False; [done|lia]. Qed.

(** A window of three cells on a slice of at least three elements shows
    its first three elements. *)
Lemma window_long {A} (v : slice A) :
  3 ≤ len v → elems (window v 3) = take 3 (elems v).
Proof. unfold len. intros. simpl. by rewrite take_app_le. Qed.

(** On a shorter slice it shows all the elements and then cells of the
    backing array that are not elements of the slice. *)
Lemma window_short {A} (v : slice A) :
  len v < 3 ≤ cap v →
  elems (window v 3) = elems v ++ take (3 - len v) (spare v)
  ∧ length (elems (window v 3)) = 3.
Proof.
  unfold len, cap. intros. simpl. split.
  - by rewrite take_app_ge by lia.
  - rewrite length_take, length_app. lia.
Qed.

(** The loop panics as soon as one of the slices it visits has a capacity
    below three, in whatever order it visits them. *)
Lemma UpcomingEvents_loop_panics pairs threeEvents k v :
  (k, v) ∈ pairs → cap v < 3 →
  ∃ e, UpcomingEvents_loop pairs threeEvents = Panic e.
Proof.
  revert threeEvents.
  induction pairs as [|[k' v'] pairs IH]; intros threeEvents Hin Hcap.
  - by apply elem_of_nil in Hin.
  - cbn [UpcomingEvents_loop]. destruct (reslice_to v' 3) eqn:Hv'; [|eauto].
    apply elem_of_cons in Hin as [[= <- <-]|Hin]; [|by apply IH].
    rewrite reslice_to_panic in Hv' by done. done.
Qed.

(** When the loop returns, every key visited is bound to the window of
    three cells on its slice, and no other key is touched. *)
Lemma UpcomingEvents_loop_value pairs threeEvents m :
  NoDup pairs.*1 →
  UpcomingEvents_loop pairs threeEvents = Value m →
  (∀ k v, (k, v) ∈ pairs → 3 ≤ cap v ∧ m !! k = Some (window v 3))
  ∧ (∀ k, k ∉ pairs.*1 → m !! k = threeEvents !! k).
Proof.
  revert threeEvents.
  induction pairs as [|[k0 v0] pairs IH]; intros threeEvents Hdup Hloop.
  - simpl in Hloop. simplify_eq. split; [|done].
    intros k v Hin. by apply elem_of_nil in Hin.
  - cbn [UpcomingEvents_loop] in Hloop. unfold reslice_to in Hloop.
    destruct (decide (3 ≤ cap v0)) as [Hcap|]; [|done].
    apply NoDup_cons in Hdup as [Hfresh Hdup].
    destruct (IH _ Hdup Hloop) as [Hin Hout]. split.
    + intros k v [[= -> ->]|Hkv]%elem_of_cons; [|by apply Hin].
      split; [done|]. by rewrite Hout, lookup_insert_eq.
    + intros k [Hne Hk]%not_elem_of_cons.
      by rewrite Hout, lookup_insert_ne.
Qed.

(** [UpcomingEvents] returns exactly when every source has a capacity of
    three or more, and then gives each source a window of three cells. *)
Lemma UpcomingEvents_value p m :
  UpcomingEvents p = Value m →
  m = (λ v, window v 3) <$> entries (events p).
Proof.
  unfold UpcomingEvents, range. intros Hloop.
  apply UpcomingEvents_loop_value in Hloop as [Hin Hout];
    [|apply NoDup_fst_map_to_list].
  apply map_eq. intros k. rewrite lookup_fmap.
  destruct (entries (events p) !! k) as [v|] eqn:Hk; simpl.
  - by apply Hin, elem_of_map_to_list.
  - rewrite Hout, lookup_empty; [done|].
    intros ((k' & v) & -> & Hkv%elem_of_map_to_list)%list_elem_of_fmap.
    simpl in Hk. congruence.
Qed.

(** A source with fewer than three events is never shown by the events it
    has, whatever the page: either [UpcomingEvents]
    panics, or the source is shown by three cells, of which those past its
    length are not events of the source. *)
Lemma UpcomingEvents_short_source p name v :
  entries (events p) !! name = Some v → len v < 3 →
  (∃ e, UpcomingEvents p = Panic e) ∨
  (∃ m v3, UpcomingEvents p = Value m ∧ m !! name = Some v3 ∧ len v3 = 3).
Proof.
  intros Hname Hlen. destruct (UpcomingEvents p) as [m|e] eqn:Hrun; [|eauto].
  right. pose proof (UpcomingEvents_value _ _ Hrun) as ->.
  unfold UpcomingEvents, range in Hrun.
  apply UpcomingEvents_loop_value in Hrun as [Hin _];
    [|apply NoDup_fst_map_to_list].
  destruct (Hin name v) as [Hcap _]; [by apply elem_of_map_to_list|].
  eexists _, (window v 3). split; [done|]. split.
  - by rewrite lookup_fmap, Hname.
  - by apply window_short.
Qed.

(** C2, at a page whose only source has one event in a slice of capacity
    one: [UpcomingEvents] panics, where the claim has a list of that one
    event. *)
Theorem UpcomingEvents_one_event e :
  UpcomingEvents {| events := Some {[ "A" := Slice [e] [] ]} |}
  = Panic (SliceBoundsOutOfRange 3 1).
Proof.
  unfold UpcomingEvents, range, entries. simpl.
  by rewrite map_to_list_singleton.
Qed.

(** A source without events, the case the page template has a "No Events"
    branch for: the panic comes before the template gets to it. *)
Lemma UpcomingEvents_no_event :
  UpcomingEvents {| events := Some {[ "A" := Slice [] [] ]} |}
  = Panic (SliceBoundsOutOfRange 3 0).
Proof.
  unfold UpcomingEvents, range, entries. simpl.
  by rewrite map_to_list_singleton.
Qed.

(** One event in a slice of capacity four, as a decoder that grows slices
    in steps of four leaves it: no panic, and three cells are shown, two of
    them zero-valued events that the source never had. *)
Lemma UpcomingEvents_spare_cells e z :
  UpcomingEvents {| events := Some {[ "A" := Slice [e] [z; z; z] ]} |}
  = Value {[ "A" := Slice [e; z; z] [z] ]}.
Proof.
  unfold UpcomingEvents, range, entries. simpl.
  rewrite map_to_list_singleton. simpl. by rewrite insert_empty.
Qed.

(** With three events or more everywhere, the view is the first three
    events of each source. *)
Lemma UpcomingEvents_three p :
  map_Forall (λ _ v, 3 ≤ len v) (entries (events p)) →
  ∃ m, UpcomingEvents p = Value m ∧
       ∀ name v, entries (events p) !! name = Some v →
                 elems <$> m !! name = Some (take 3 (elems v)).
Proof.
  intros Hlong. destruct (UpcomingEvents p) as [m|e] eqn:Hrun.
  - exists m. split; [done|]. intros name v Hname.
    rewrite (UpcomingEvents_value _ _ Hrun), lookup_fmap, Hname. simpl.
    f_equal. rewrite take_app_le; [done|]. by apply (Hlong name v).
  - exfalso. unfold UpcomingEvents, range in Hrun.
    assert (∀ pairs acc,
      Forall (λ kv, 3 ≤ cap kv.2) pairs →
      UpcomingEvents_loop pairs acc ≠ Panic e) as Hno.
    { induction pairs as [|[k v] pairs IH]; intros acc Hall; [done|].
      apply Forall_cons in Hall as [Hv Hall]. cbn [UpcomingEvents_loop].
      rewrite reslice_to_value by done. by apply IH. }
    eapply Hno; [|done]. apply Forall_forall.
    intros [k v] Hkv%elem_of_map_to_list. simpl.
    specialize (Hlong k v Hkv). unfold cap, len in *. simpl in *. lia.
Qed.

End UiFacts.

(** * The theorems at concrete inputs *)

Module Checks.
Import Go Data Cycle Scenario DataFacts.

Abbreviation stable := (GoSortFacts.stable_sorter Event).
Abbreviation reversing := (GoSortFacts.reversing_sorter Event).

(** The compiled-in source list names each source once. *)
Lemma meetupNames_init_NoDup : NoDup meetupNames_init.
Proof. by apply (bool_decide_unpack _). Qed.

Lemma all_return_A_only names k : all_return net_A_only names k.
Proof. intros i name _. unfold net_A_only. case_decide; eauto. Qed.

(** C1, at a network that is down.  The first request of the first turn
    fails at transport level and the process exits with status 1: the
    source is not skipped, no Snapshot is installed, the loop is over. *)
Theorem transport_failure_ends_process `{!GoSort.Sorter Event} n i :
  Poll net_down meetupNames_init (S n) (NewStore i) startup
  = Exit 1 {| requests := 1;
              history := [Get (url "Boulder-Gophers");
                          Fatal "dial tcp: i/o timeout"] |}.
Proof. reflexivity. Qed.

(** Nor is the failure kept to its source: when the request for ["B"]
    fails, the events already fetched for ["A"] are lost with the process. *)
Lemma transport_failure_loses_other_sources `{!GoSort.Sorter Event} s :
  poll net_B_down ["A"; "B"] s startup
  = Exit 1 {| requests := 2;
              history := [Get (url "A"); Get (url "B");
                          Fatal "dial tcp: connection refused"] |}.
Proof. reflexivity. Qed.


Lemma poll_sorted_witness :
  poll (H := stable) net_A_only ["A"; "B"] (NewStore 60) startup
  = Ret {[ "A" := Slice [event "2" 100; event "1" 300] [] ]}
        {| requests := 2;
           history :=
             [Get (url "A"); Get (url "B");
              Printf "error fetching events for B: unexpected end of JSON input"] |}
  ∧ StronglySorted by_time [event "2" 100; event "1" 300].
Proof.
  assert (poll (H := stable) net_A_only ["A"; "B"] (NewStore 60) startup
          = Ret {[ "A" := Slice [event "2" 100; event "1" 300] [] ]}
                {| requests := 2;
                   history :=
                     [Get (url "A"); Get (url "B");
                      Printf "error fetching events for B: unexpected end of JSON input"] |})
    as Hret by (vm_compute; reflexivity).
  split; [exact Hret|].
  apply (poll_sorted net_A_only ["A"; "B"] (NewStore 60) startup _ _ Hret
           "A" (Slice [event "2" 100; event "1" 300] [])).
  vm_compute. reflexivity.
Defined.




Lemma Poll_turns_witness :
  (∀ j, j < 2 → all_return net_A_only ["A"; "B"] (0 + j * 2)) ∧
  ∃ s' new,
    Poll (H := stable) net_A_only ["A"; "B"] 2 (NewStore 60) startup
      = Ret s' {| requests := 4; history := new |} ∧
    steps new =
      [Fetch (url "A"); Fetch (url "B");
       Replace (Some {[ "A" := Slice [event "2" 100; event "1" 300] [] ]});
       Wait 60;
       Fetch (url "A"); Fetch (url "B");
       Replace (Some {[ "A" := Slice [event "2" 100; event "1" 300] [] ]});
       Wait 60].
Proof.
  assert (∀ j, j < 2 → all_return net_A_only ["A"; "B"] (0 + j * 2)) as Hall
    by (intros j _; apply all_return_A_only).
  split; [exact Hall|].
  destruct (Poll_turns (H := stable) net_A_only ["A"; "B"] 2 (NewStore 60)
              startup Hall) as (s' & new & Hrun & Hsteps & _).
  exists s', new. split; [exact Hrun|].
  rewrite Hsteps. vm_compute. reflexivity.
Defined.

Lemma HumanTime_whole_second_witness :
  HumanTime GoTime.UTC (event "1" 1500000000123)
  = HumanTime GoTime.UTC (event "2" 1500000000999).
Proof.
  apply (HumanTime_whole_second GoTime.UTC (event "1" 1500000000123)
           (event "2" 1500000000999)).
  reflexivity.
Defined.

(** The display time of an event, in UTC. *)
Example HumanTime_sample :
  HumanTime GoTime.UTC (event "1" 1500000000123)
  = "Fri, 14 Jul 2017 02:40:00 UTC".
Proof. vm_compute. reflexivity. Qed.

(** The quotient is taken toward zero: half a second before the epoch and
    half a second after it display alike. *)
Example HumanTime_around_epoch :
  HumanTime GoTime.UTC (event "1" (-500)) = "Thu, 01 Jan 1970 00:00:00 UTC"
  ∧ HumanTime GoTime.UTC (event "2" 500) = "Thu, 01 Jan 1970 00:00:00 UTC".
Proof. split; vm_compute; reflexivity. Qed.

Example Format_RFC1123_layout :
  GoTime.Format_RFC1123 (λ _, GoTime.Zone "MST" (-25200))
    (GoTime.Unix 1136239445 0)
  = "Mon, 02 Jan 2006 15:04:05 MST".
Proof. vm_compute. reflexivity. Qed.

End Checks.

(** * More facts about package [data] *)

Module DataExtra.
Import Go Data Cycle Observations DataFacts.

Lemma append_empty_r (s : string) : s +:+ "" = s.
Proof.
  induction s as [|c s IH]; [done|].
  change (String c (s +:+ "") = String c s). by f_equal.
Qed.

Lemma failure_line_Sprintf name err :
  Sprintf "error fetching events for %s: %s" [name; err]
  = failure_line name err.
Proof.
  unfold failure_line. rewrite <- (append_empty_r err) at 2. reflexivity.
Qed.

Lemma url_shape name :
  url name = "https://api.meetup.com/" +:+ name +:+ "/events?status=upcoming".
Proof. reflexivity. Qed.

Lemma omap_cons_app {A B} (f : A → option B) x l :
  omap f (x :: l) = from_option (λ y, [y]) [] (f x) ++ omap f l.
Proof. simpl. by destruct (f x). Qed.

Lemma log_lines_app h1 h2 : log_lines (h1 ++ h2) = log_lines h1 ++ log_lines h2.
Proof. apply omap_app. Qed.

Lemma NoDup_fmap_inj {A B} (f : A → B) l x y :
  NoDup (f <$> l) → x ∈ l → y ∈ l → f x = f y → x = y.
Proof.
  induction l as [|a l IH]; intros Hdup Hx Hy Hf.
  - by apply elem_of_nil in Hx.
  - rewrite fmap_cons in Hdup. apply NoDup_cons in Hdup as [Hfresh Hdup].
    apply elem_of_cons in Hx as [->|Hx]; apply elem_of_cons in Hy as [->|Hy].
    + done.
    + destruct Hfresh. rewrite Hf. by apply list_elem_of_fmap_2.
    + destruct Hfresh. rewrite <- Hf. by apply list_elem_of_fmap_2.
    + by apply IH.
Qed.

(** Events with pairwise different times have one sorted arrangement. *)
Lemma by_time_sorted_unique l1 l2 :
  l1 ≡ₚ l2 → Sorted by_time l1 → Sorted by_time l2 →
  NoDup (Time <$> l1) → l1 = l2.
Proof.
  intros Hperm Hs1 Hs2 Hdup.
  apply (StronglySorted_unique_strong by_time);
    [|by apply Sorted_StronglySorted; [apply _|]..|done].
  intros x1 x2 Hx1 Hx2 H12 H21. apply (NoDup_fmap_inj Time l1); try done.
  - by rewrite Hperm.
  - unfold by_time in *. lia.
Qed.



Section Package.
Context (net : Network) `{!GoSort.Sorter Event}.

Lemma all_return_cons_2 meetup names k body :
  net k (url meetup) = Ok body → all_return net names (S k) →
  all_return net (meetup :: names) k.
Proof.
  intros Hhd Htl [|i] name Hi; simplify_eq/=.
  - rewrite Nat.add_0_r. eauto.
  - rewrite Nat.add_succ_r. by apply Htl.
Qed.

Lemma fetch_log_cons meetup names k :
  fetch_log net (meetup :: names) k
  = fetch_log net [meetup] k ++ fetch_log net names (S k).
Proof. cbn [fetch_log]. by rewrite app_nil_r. Qed.

(** Where the first loop of [poll] exits: at the first request that fails
    at transport level, after the requests before it. *)
Lemma poll_range_exit_inv names all p st p' :
  poll_range net names all p = Exit st p' →
  st = 1%Z ∧
  ∃ i name err,
    names !! i = Some name ∧
    net (requests p + i) (url name) = Err err ∧
    all_return net (take i names) (requests p) ∧
    p' = {| requests := requests p + S i;
            history := history p ++ fetch_log net (take i names) (requests p)
                         ++ [Get (url name); Fatal err] |}.
Proof.
  revert all p st p'.
  induction names as [|meetup names IH]; intros all p st p' Hexit.
  - done.
  - cbn [poll_range] in Hexit. rewrite bind_run, events_run in Hexit.
    destruct (net (requests p) (url meetup)) as [body|err] eqn:Hnet.
    + assert (∃ all1 p2,
        poll_range net names all1 p2 = Exit st p' ∧ requests p2 = S (requests p)
        ∧ history p2 = history p ++ fetch_log net [meetup] (requests p))
        as (all1 & p2 & Hrest & Hreq & Hhist).
      { cbn [fetch_log]. rewrite Hnet.
        destruct body as [data|err]; cbn [Decode] in Hexit.
        - eexists (<[meetup := data]> all), _. split; [exact Hexit|].
          by rewrite app_nil_r.
        - rewrite bind_run in Hexit. eexists all, _. split; [exact Hexit|].
          unfold record. simpl. by rewrite <- app_assoc. }
      destruct (IH _ _ _ _ Hrest)
        as (Hst & i & name & err & Hi & Herr & Hall & Hp').
      split; [done|]. exists (S i), name, err. rewrite Hreq in *.
      split_and!.
      * done.
      * by rewrite Nat.add_succ_r.
      * by eapply all_return_cons_2.
      * rewrite Hp', Hhist. cbn [take].
        rewrite (fetch_log_cons meetup (take i names)).
        f_equal; [lia|]. by rewrite <- !app_assoc.
    + simplify_eq. split; [done|]. exists 0, meetup, err.
      rewrite Nat.add_0_r. split_and!; try done.
      simpl. f_equal. lia.
Qed.

(** The gathered map at a source none of whose requests returned events. *)
Lemma gathered_no_answer names k all name :
  (∀ j data, names !! j = Some name →
             net (k + j) (url name) ≠ Ok (Json data)) →
  gathered net names k all !! name = all !! name.
Proof.
  revert k all. induction names as [|meetup names IH]; intros k all Hno.
  - done.
  - assert (∀ j data, names !! j = Some name →
                      net (S k + j) (url name) ≠ Ok (Json data)) as Hno'.
    { intros j data Hj. specialize (Hno (S j) data Hj).
      by rewrite Nat.add_succ_r in Hno. }
    cbn [gathered].
    destruct (net k (url meetup)) as [[data|err]|err] eqn:Hnet;
      rewrite IH by done; try done.
    destruct (decide (meetup = name)) as [->|Hne].
    + specialize (Hno 0 data eq_refl). rewrite Nat.add_0_r in Hno. done.
    + by rewrite lookup_insert_ne.
Qed.

(** The gathered map at a source, given the last of its requests that
    returned events. *)
Lemma gathered_last_answer names k all i name data :
  names !! i = Some name →
  net (k + i) (url name) = Ok (Json data) →
  (∀ j data', i < j → names !! j = Some name →
              net (k + j) (url name) ≠ Ok (Json data')) →
  gathered net names k all !! name = Some data.
Proof.
  revert k all i.
  induction names as [|meetup names IH]; intros k all i Hi Hnet Hlast; [done|].
  cbn [gathered]. destruct i as [|i]; simplify_eq/=.
  - rewrite Nat.add_0_r in Hnet. rewrite Hnet.
    rewrite gathered_no_answer; [by rewrite lookup_insert_eq|].
    intros j data' Hj. replace (S k + j) with (k + S j) by lia.
    apply Hlast; [lia|done].
  - rewrite Nat.add_succ_r in Hnet.
    assert (∀ all', gathered net names (S k) all' !! name = Some data) as Hgo.
    { intros all'. apply (IH _ _ i); [done..|].
      intros j data' Hij Hj. replace (S k + j) with (k + S j) by lia.
      apply Hlast; [lia|done]. }
    by destruct (net k (url meetup)) as [[data'|err]|err].
Qed.

(** The sources present in the gathered map. *)
Lemma gathered_present names k all name :
  is_Some (gathered net names k all !! name) ↔
  is_Some (all !! name) ∨
  ∃ i data, names !! i = Some name ∧ net (k + i) (url name) = Ok (Json data).
Proof.
  revert k all. induction names as [|meetup names IH]; intros k all.
  - simpl. split; [by left|]. by intros [?|(i & data & ? & _)].
  - assert ((∃ i data, names !! i = Some name
                       ∧ net (S k + i) (url name) = Ok (Json data))
            → ∃ i data, (meetup :: names) !! i = Some name
                        ∧ net (k + i) (url name) = Ok (Json data)) as Hshift.
    { intros (i & data & Hi & Hnet). exists (S i), data.
      by rewrite Nat.add_succ_r. }
    cbn [gathered].
    destruct (net k (url meetup)) as [[data|err]|err] eqn:Hnet; rewrite IH.
    + split.
      * intros [Hin|?]; [|by right; apply Hshift].
        destruct (decide (meetup = name)) as [->|Hne].
        -- right. exists 0, data. by rewrite Nat.add_0_r.
        -- rewrite lookup_insert_ne in Hin by done. by left.
      * intros [Hin|(i & data' & Hi & Hi')].
        -- left. destruct (decide (meetup = name)) as [->|Hne].
           ++ by rewrite lookup_insert_eq.
           ++ by rewrite lookup_insert_ne.
        -- destruct i as [|i]; simplify_eq/=.
           ++ left. by rewrite lookup_insert_eq.
           ++ right. exists i, data'. by rewrite Nat.add_succ_r in Hi'.
    + split; [intros [?|?]; [by left|by right; apply Hshift]|].
      intros [?|(i & data' & Hi & Hi')]; [by left|].
      destruct i as [|i]; simplify_eq/=.
      * rewrite Nat.add_0_r in Hi'. congruence.
      * right. exists i, data'. by rewrite Nat.add_succ_r in Hi'.
    + split; [intros [?|?]; [by left|by right; apply Hshift]|].
      intros [?|(i & data' & Hi & Hi')]; [by left|].
      destruct i as [|i]; simplify_eq/=.
      * rewrite Nat.add_0_r in Hi'. congruence.
      * right. exists i, data'. by rewrite Nat.add_succ_r in Hi'.
Qed.

Section Names.
Variable meetupNames : list string.

(** [poll] returns a Snapshot exactly when no request of the cycle fails at
    transport level. *)
Theorem poll_returns_iff s p :
  (∃ snap p', poll net meetupNames s p = Ret snap p')
  ↔ all_return net meetupNames (requests p).
Proof.
  split.
  - intros (snap & p' & Hret). by eapply poll_all_return.
  - intros Hall. eexists _, _. by apply poll_returns.
Qed.

(** When [poll] does not return, the process has exited with status 1 at
    the first request that failed at transport level: the sources before it
    were requested, the failing one was, the error was printed, and no
    later source was requested. *)
Theorem poll_exit_at_first_failure s p st p' :
  poll net meetupNames s p = Exit st p' →
  st = 1%Z ∧
  ∃ i name err,
    meetupNames !! i = Some name ∧
    net (requests p + i) (url name) = Err err ∧
    all_return net (take i meetupNames) (requests p) ∧
    requests p' = requests p + S i ∧
    steps (drop (length (history p)) (history p'))
      = Fetch ∘ url <$> take (S i) meetupNames ∧
    last (history p') = Some (Fatal err).
Proof.
  unfold poll. rewrite bind_run.
  destruct (poll_range _ _ _ _) as [|st' p1] eqn:Hrange; [done|].
  intros [= -> ->].
  apply poll_range_exit_inv in Hrange
    as (-> & i & name & err & Hi & Herr & Hall & ->).
  split; [done|]. exists i, name, err. split_and!; try done.
  - cbn [history]. rewrite drop_app_length, !steps_app, steps_fetch_log.
    by rewrite (take_S_r _ _ name), fmap_app.
  - cbn [history].
    change [Get (url name); Fatal err]
      with ([Get (url name)] ++ [Fatal err]).
    by rewrite !app_assoc, last_snoc.
Qed.

(** The lines a cycle logs are the failure lines of the sources whose body
    did not decode, one each, in the order of the source list. *)
Theorem poll_log_lines s p snap p' :
  poll net meetupNames s p = Ret snap p' →
  log_lines (history p') =
  log_lines (history p)
    ++ omap (logged net) (zip (seq (requests p) (length meetupNames))
                              meetupNames).
Proof.
  intros Hret. pose proof (poll_all_return _ _ _ _ _ _ Hret) as Hall.
  rewrite poll_returns in Hret by done. simplify_eq. cbn [history].
  rewrite log_lines_app. f_equal. clear Hall.
  generalize (requests p) as k.
  induction meetupNames as [|meetup names IH]; intros k; [done|].
  rewrite fetch_log_cons, log_lines_app, IH.
  change (zip (seq k (length (meetup :: names))) (meetup :: names))
    with ((k, meetup) :: zip (seq (S k) (length names)) names).
  rewrite omap_cons_app. f_equal. unfold logged. cbn [fetch_log fst snd].
  destruct (net k (url meetup)) as [[data|err]|err]; try done.
  by rewrite failure_line_Sprintf.
Qed.

(** [poll] keeps the events of a source: what the Snapshot holds for it is
    a rearrangement of the events fetched, of the same length, in a slice of
    the same capacity with the same cells past its length. *)
Theorem poll_keeps_events s p snap p' i name data :
  NoDup meetupNames →
  poll net meetupNames s p = Ret snap p' →
  meetupNames !! i = Some name →
  net (requests p + i) (url name) = Ok (Json data) →
  ∃ v, snap !! name = Some v ∧
       elems v ≡ₚ elems data ∧ spare v = spare data ∧
       len v = len data ∧ cap v = cap data.
Proof.
  intros Hdup Hret Hi Hnet. apply poll_inv in Hret as ->.
  exists (GoSort.Slice data less).
  assert (elems (GoSort.Slice data less) ≡ₚ elems data) as Hperm
    by apply GoSort.sort_by_perm.
  split_and!; try done.
  - apply snapshot_lookup. exists data. split; [|done].
    by rewrite (gathered_polled _ _ _ _ i), Hnet.
  - unfold len. by rewrite Hperm.
  - unfold cap. by rewrite Hperm.
Qed.


(** Which sources a Snapshot holds, for any source list, repetitions
    included: those for which some request of the cycle returned events. *)
Theorem poll_present_iff s p snap p' name :
  poll net meetupNames s p = Ret snap p' →
  is_Some (snap !! name) ↔
  ∃ i data, meetupNames !! i = Some name
            ∧ net (requests p + i) (url name) = Ok (Json data).
Proof.
  intros Hret. apply poll_inv in Hret as ->. unfold snapshot.
  rewrite lookup_fmap, fmap_is_Some, gathered_present, lookup_empty.
  split; [|by right]. intros [[? [=]]|?]. done.
Qed.

(** When a source is listed more than once, the last of its requests that
    returned events decides what the Snapshot holds for it: a later request
    that returns an error does not take the events away. *)
Theorem poll_last_answer_wins s p snap p' i name data :
  poll net meetupNames s p = Ret snap p' →
  meetupNames !! i = Some name →
  net (requests p + i) (url name) = Ok (Json data) →
  (∀ j data', i < j → meetupNames !! j = Some name →
              net (requests p + j) (url name) ≠ Ok (Json data')) →
  snap !! name = Some (GoSort.Slice data less).
Proof.
  intros Hret Hi Hnet Hlast. apply poll_inv in Hret as ->.
  apply snapshot_lookup. exists data. split; [|done].
  by eapply gathered_last_answer.
Qed.

End Names.


Section Loop.
Variable meetupNames : list string.




End Loop.
End Package.

(** [HumanTime] shows the second reached by dropping the milliseconds
    toward zero: the start of the second for times at or after the epoch,
    the end of the second for times before it, where the millisecond time at
    its full precision would be shown a second earlier.  The division does
    not leave the range of [int64]. *)
Theorem HumanTime_truncates Local e :
  int64_range (Time e) →
  ∃ q : Z,
    HumanTime Local e = GoTime.Format_RFC1123 Local (GoTime.Unix q 0) ∧
    (0 ≤ Time e → 1000 * q ≤ Time e < 1000 * q + 1000)%Z ∧
    (Time e ≤ 0 → 1000 * q - 1000 < Time e ≤ 1000 * q)%Z.
Proof.
  intros Hrange. exists (Time e `quot` 1000)%Z. split_and!.
  - unfold HumanTime. by rewrite div64_1000.
  - intros Hpos. pose proof (Z.quot_rem' (Time e) 1000).
    pose proof (Z.rem_bound_pos (Time e) 1000). lia.
  - intros Hneg. pose proof (Z.quot_rem' (- Time e) 1000).
    pose proof (Z.rem_bound_pos (- Time e) 1000).
    pose proof (Z.quot_opp_l (Time e) 1000). lia.
Qed.

(** When the events fetched for a source have pairwise different times,
    their order in the Snapshot does not depend on the sorting algorithm. *)
Theorem poll_order_determined (H1 H2 : GoSort.Sorter Event) net names s p
    snap1 snap2 p1 p2 i name data :
  NoDup names →
  poll (H := H1) net names s p = Ret snap1 p1 →
  poll (H := H2) net names s p = Ret snap2 p2 →
  names !! i = Some name →
  net (requests p + i) (url name) = Ok (Json data) →
  NoDup (Time <$> elems data) →
  snap1 !! name = snap2 !! name.
Proof.
  intros Hdup Hret1 Hret2 Hi Hnet Htimes.
  apply poll_inv in Hret1 as ->. apply poll_inv in Hret2 as ->.
  unfold snapshot.
  rewrite !lookup_fmap, !(gathered_polled _ _ _ _ i), Hnet by done. simpl.
  assert (GoSort.sort_by (Sorter := H1) less (elems data)
          = GoSort.sort_by (Sorter := H2) less (elems data)) as Heq.
  { apply by_time_sorted_unique.
    - by rewrite !GoSort.sort_by_perm.
    - apply Sorted_by_time, GoSort.sort_by_sorted, less_swo.
    - apply Sorted_by_time, GoSort.sort_by_sorted, less_swo.
    - by rewrite GoSort.sort_by_perm. }
  unfold GoSort.Slice. by rewrite Heq.
Qed.

End DataExtra.

(** * More facts about package [ui] *)

Module UiExtra.
Import Go Data Ui Cycle DataFacts UiFacts.

(** The loop returns when every slice it visits has room for three
    cells. *)
Lemma UpcomingEvents_loop_returns pairs threeEvents :
  Forall (λ kv, 3 ≤ cap kv.2) pairs →
  ∃ m, UpcomingEvents_loop pairs threeEvents = Value m.
Proof.
  revert threeEvents.
  induction pairs as [|[k v] pairs IH]; intros threeEvents Hall.
  - by eexists.
  - apply Forall_cons in Hall as [Hv Hall]. cbn [UpcomingEvents_loop].
    rewrite reslice_to_value by done. by apply IH.
Qed.

(** When the loop panics, it is on a slice it visits whose capacity is
    below three, and the panic tells that capacity. *)
Lemma UpcomingEvents_loop_panic_inv pairs threeEvents e :
  UpcomingEvents_loop pairs threeEvents = Panic e →
  ∃ k v, (k, v) ∈ pairs ∧ cap v < 3 ∧ e = SliceBoundsOutOfRange 3 (cap v).
Proof.
  revert threeEvents.
  induction pairs as [|[k v] pairs IH]; intros threeEvents Hloop; [done|].
  cbn [UpcomingEvents_loop] in Hloop. unfold reslice_to in Hloop.
  destruct (decide (3 ≤ cap v)) as [Hcap|Hcap].
  - destruct (IH _ Hloop) as (k' & v' & Hin & Hlt & ->).
    exists k', v'. split; [by right|done].
  - simplify_eq. exists k, v. split; [by left|]. split; [lia|done].
Qed.

(** What [UpcomingEvents] does, in full.  It returns exactly when every
    source has a slice of capacity three or more, and then gives every
    source, and nothing else, the first three cells of its backing array.
    Otherwise it panics on one of the sources whose capacity is below three,
    with that capacity in the panic. *)
Theorem UpcomingEvents_outcome p :
  match UpcomingEvents p with
  | Value m =>
      map_Forall (λ _ v, 3 ≤ cap v) (entries (events p)) ∧
      m = (λ v, window v 3) <$> entries (events p)
  | Panic e =>
      ∃ name v, entries (events p) !! name = Some v ∧ cap v < 3 ∧
                e = SliceBoundsOutOfRange 3 (cap v)
  end.
Proof.
  destruct (UpcomingEvents p) as [m|e] eqn:Hrun.
  - split; [|by apply UpcomingEvents_value].
    unfold UpcomingEvents, range in Hrun.
    apply UpcomingEvents_loop_value in Hrun as [Hin _];
      [|apply NoDup_fst_map_to_list].
    intros name v Hname. by apply (Hin name v), elem_of_map_to_list.
  - unfold UpcomingEvents, range in Hrun.
    apply UpcomingEvents_loop_panic_inv in Hrun as (k & v & Hin & Hcap & ->).
    exists k, v. by apply elem_of_map_to_list in Hin.
Qed.

(** The order in which the map is ranged over, which Go leaves open, does
    not change what the loop of [UpcomingEvents] returns, nor whether it
    panics. *)
Theorem UpcomingEvents_any_order pairs1 pairs2 threeEvents :
  NoDup pairs1.*1 → pairs1 ≡ₚ pairs2 →
  match UpcomingEvents_loop pairs1 threeEvents,
        UpcomingEvents_loop pairs2 threeEvents with
  | Value m1, Value m2 => m1 = m2
  | Panic _, Panic _ => True
  | _, _ => False
  end.
Proof.
  intros Hdup1 Hperm.
  assert (NoDup pairs2.*1) as Hdup2 by (by rewrite <- Hperm).
  destruct (UpcomingEvents_loop pairs1 _) as [m1|e1] eqn:Hrun1,
           (UpcomingEvents_loop pairs2 _) as [m2|e2] eqn:Hrun2; [| | |done].
  - apply UpcomingEvents_loop_value in Hrun1 as [Hin1 Hout1]; [|done].
    apply UpcomingEvents_loop_value in Hrun2 as [Hin2 Hout2]; [|done].
    apply map_eq. intros k.
    destruct (decide (k ∈ pairs1.*1)) as [Hk|Hk].
    + apply list_elem_of_fmap in Hk as ([k' v] & -> & Hkv). simpl.
      destruct (Hin1 _ _ Hkv) as [_ ->].
      rewrite Hperm in Hkv. by destruct (Hin2 _ _ Hkv) as [_ ->].
    + rewrite Hout1 by done. rewrite Hperm in Hk. by rewrite Hout2.
  - apply UpcomingEvents_loop_value in Hrun1 as [Hin1 _]; [|done].
    apply UpcomingEvents_loop_panic_inv in Hrun2 as (k & v & Hin & Hcap & _).
    rewrite <- Hperm in Hin. destruct (Hin1 _ _ Hin). lia.
  - apply UpcomingEvents_loop_value in Hrun2 as [Hin2 _]; [|done].
    apply UpcomingEvents_loop_panic_inv in Hrun1 as (k & v & Hin & Hcap & _).
    rewrite Hperm in Hin. destruct (Hin2 _ _ Hin). lia.
Qed.

(** Every source of a Snapshot has its events sorted by time. *)
Lemma snapshot_sorted net `{!GoSort.Sorter Event} names k name v :
  snapshot net names k !! name = Some v → StronglySorted by_time (elems v).
Proof.
  intros (data & _ & ->)%snapshot_lookup. simpl.
  apply Sorted_StronglySorted; [apply _|].
  apply Sorted_by_time, GoSort.sort_by_sorted, less_swo.
Qed.

(** From the poller to the page.  When every source of the Snapshot that
    [poll] returns has three events or more, [UpcomingEvents] on that
    Snapshot returns, and shows for each source its three earliest events,
    earliest first: no event of the source that is left out occurs before
    one that is shown. *)
Theorem UpcomingEvents_of_poll net `{!GoSort.Sorter Event} names s p snap p' :
  poll net names s p = Ret snap p' →
  map_Forall (λ _ v, 3 ≤ len v) snap →
  ∃ view,
    UpcomingEvents {| events := Some snap |} = Value view ∧
    ∀ name v, snap !! name = Some v →
      ∃ v3, view !! name = Some v3 ∧
            elems v3 = take 3 (elems v) ∧
            StronglySorted by_time (elems v3) ∧
            ∀ e e', e ∈ elems v3 → e' ∈ drop 3 (elems v) → by_time e e'.
Proof.
  intros Hret Hlong. apply poll_inv in Hret as ->.
  destruct (UpcomingEvents_loop_returns
              (range (Some (snapshot net names (requests p)))) ∅)
    as [view Hview].
  { apply Forall_forall. intros [k v] Hkv%elem_of_map_to_list. simpl.
    specialize (Hlong k v Hkv). unfold cap, len in *. simpl in *. lia. }
  change (UpcomingEvents {| events := Some (snapshot net names (requests p)) |}
          = Value view) in Hview.
  exists view. split; [done|]. intros name v Hname.
  exists (window v 3). split_and!.
  - rewrite (UpcomingEvents_value _ _ Hview), lookup_fmap. simpl.
    by rewrite Hname.
  - apply window_long. by apply (Hlong name v).
  - rewrite window_long by (by apply (Hlong name v)).
    apply snapshot_sorted in Hname.
    rewrite <- (take_drop 3 (elems v)) in Hname.
    by apply StronglySorted_app_1_l in Hname.
  - rewrite window_long by (by apply (Hlong name v)).
    apply snapshot_sorted in Hname.
    rewrite <- (take_drop 3 (elems v)) in Hname.
    intros e e' He He'. by eapply StronglySorted_app_1_elem_of.
Qed.

End UiExtra.

(** * The further theorems at concrete inputs *)

Module ExtraChecks.
Import Go Data Ui Cycle Scenario Observations.
Import DataFacts UiFacts DataExtra UiExtra.

Abbreviation stable := (GoSortFacts.stable_sorter Event).
Abbreviation reversing := (GoSortFacts.reversing_sorter Event).

Lemma poll_exit_at_first_failure_witness :
  poll (H := stable) net_B_down ["A"; "B"] (NewStore 60) startup
    = Exit 1 {| requests := 2;
                history := [Get (url "A"); Get (url "B");
                            Fatal "dial tcp: connection refused"] |}
  ∧ ∃ i name err,
      ["A"; "B"] !! i = Some name ∧
      net_B_down (0 + i) (url name) = Err err ∧
      all_return net_B_down (take i ["A"; "B"]) 0 ∧
      2 = 0 + S i.
Proof.
  assert (poll (H := stable) net_B_down ["A"; "B"] (NewStore 60) startup
          = Exit 1 {| requests := 2;
                      history := [Get (url "A"); Get (url "B");
                                  Fatal "dial tcp: connection refused"] |})
    as Hexit by reflexivity.
  split; [exact Hexit|].
  destruct (poll_exit_at_first_failure (H := stable) net_B_down ["A"; "B"]
              (NewStore 60) startup _ _ Hexit)
    as (_ & i & name & err & Hi & Herr & Hall & Hreq & _).
  exists i, name, err. split; [exact Hi|]. split; [exact Herr|].
  split; [exact Hall|exact Hreq].
Defined.

Lemma poll_log_lines_witness :
  ∃ snap p',
    poll (H := stable) net_A_only ["A"; "B"] (NewStore 60) startup
      = Ret snap p' ∧
    log_lines (history p')
      = ["error fetching events for B: unexpected end of JSON input"].
Proof.
  eexists _, _. split; [vm_compute; reflexivity|].
  exact (poll_log_lines (H := stable) net_A_only ["A"; "B"] (NewStore 60)
           startup _ _ eq_refl).
Defined.

Lemma poll_keeps_events_witness :
  NoDup ["A"; "B"] ∧
  ∃ snap p' v,
    poll (H := stable) net_A_only ["A"; "B"] (NewStore 60) startup
      = Ret snap p' ∧
    snap !! "A" = Some v ∧
    elems v ≡ₚ [event "1" 300; event "2" 100] ∧ cap v = 2.
Proof.
  assert (NoDup ["A"; "B"]) as Hdup by (by apply (bool_decide_unpack _)).
  split; [exact Hdup|].
  destruct (poll_keeps_events (H := stable) net_A_only ["A"; "B"]
              (NewStore 60) startup _ _ 0 "A"
              (Slice [event "1" 300; event "2" 100] []) Hdup eq_refl
              eq_refl eq_refl)
    as (v & Hv & Hperm & _ & _ & Hcap).
  eexists _, _, v. split; [reflexivity|]. split; [exact Hv|].
  split; [exact Hperm|exact Hcap].
Defined.


Lemma poll_present_iff_witness :
  ∃ snap p',
    poll (H := stable) net_A_only ["A"; "B"] (NewStore 60) startup
      = Ret snap p' ∧
    (is_Some (snap !! "B") ↔
     ∃ i data, ["A"; "B"] !! i = Some "B"
               ∧ net_A_only (0 + i) (url "B") = Ok (Json data)).
Proof.
  eexists _, _. split; [reflexivity|].
  exact (poll_present_iff (H := stable) net_A_only ["A"; "B"] (NewStore 60)
           startup _ _ "B" eq_refl).
Defined.

Lemma poll_last_answer_wins_witness :
  (∀ j data', 0 < j → ["A"; "A"] !! j = Some "A" →
              net_first_only (0 + j) (url "A") ≠ Ok (Json data')) ∧
  ∃ snap p',
    poll (H := stable) net_first_only ["A"; "A"] (NewStore 60) startup
      = Ret snap p' ∧
    snap !! "A" = Some (Slice [event "2" 100; event "1" 300] []).
Proof.
  assert (∀ j data', 0 < j → ["A"; "A"] !! j = Some "A" →
            net_first_only (0 + j) (url "A") ≠ Ok (Json data')) as Hlast.
  { intros [|j] data' Hj _; [lia|]. done. }
  split; [exact Hlast|].
  eexists _, _. split; [reflexivity|].
  exact (poll_last_answer_wins (H := stable) net_first_only ["A"; "A"]
           (NewStore 60) startup _ _ 0 "A"
           (Slice [event "1" 300; event "2" 100] []) eq_refl eq_refl eq_refl
           Hlast).
Defined.


Lemma poll_order_determined_witness :
  NoDup ["A"; "B"] ∧ NoDup (Time <$> [event "1" 300; event "2" 100]) ∧
  ∃ snap1 snap2 p1 p2,
    poll (H := stable) net_A_only ["A"; "B"] (NewStore 60) startup
      = Ret snap1 p1 ∧
    poll (H := reversing) net_A_only ["A"; "B"] (NewStore 60) startup
      = Ret snap2 p2 ∧
    snap1 !! "A" = snap2 !! "A".
Proof.
  assert (NoDup ["A"; "B"]) as Hdup by (by apply (bool_decide_unpack _)).
  assert (NoDup (Time <$> [event "1" 300; event "2" 100])) as Htimes
    by (by apply (bool_decide_unpack _)).
  split; [exact Hdup|]. split; [exact Htimes|].
  eexists _, _, _, _. split; [reflexivity|]. split; [reflexivity|].
  exact (poll_order_determined stable reversing net_A_only ["A"; "B"]
           (NewStore 60) startup _ _ _ _ 0 "A"
           (Slice [event "1" 300; event "2" 100] [])
           Hdup eq_refl eq_refl eq_refl eq_refl Htimes).
Defined.

Lemma HumanTime_truncates_witness :
  int64_range (-1) ∧
  ∃ q : Z,
    HumanTime GoTime.UTC (event "1" (-1))
      = GoTime.Format_RFC1123 GoTime.UTC (GoTime.Unix q 0) ∧
    (1000 * q - 1000 < -1 ≤ 1000 * q)%Z.
Proof.
  assert (int64_range (-1)) as Hrange by (unfold int64_range; lia).
  split; [exact Hrange|].
  destruct (HumanTime_truncates GoTime.UTC (event "1" (-1)) Hrange)
    as (q & Hq & _ & Hneg).
  exists q. split; [exact Hq|]. apply Hneg. simpl. lia.
Defined.

Lemma UpcomingEvents_any_order_witness :
  NoDup [("A", Slice [event "1" 1; event "2" 2; event "3" 3] []);
         ("B", Slice [event "4" 4] [])].*1 ∧
  match UpcomingEvents_loop
          [("A", Slice [event "1" 1; event "2" 2; event "3" 3] []);
           ("B", Slice [event "4" 4] [])] ∅,
        UpcomingEvents_loop
          [("B", Slice [event "4" 4] []);
           ("A", Slice [event "1" 1; event "2" 2; event "3" 3] [])] ∅ with
  | Value m1, Value m2 => m1 = m2
  | Panic _, Panic _ => True
  | _, _ => False
  end.
Proof.
  assert (NoDup [("A", Slice [event "1" 1; event "2" 2; event "3" 3] []);
                 ("B", Slice [event "4" 4] [])].*1) as Hdup
    by (by apply (bool_decide_unpack _)).
  split; [exact Hdup|].
  apply (UpcomingEvents_any_order _ _ ∅ Hdup). apply Permutation_swap.
Defined.

Lemma UpcomingEvents_three_witness :
  map_Forall (λ _ v, 3 ≤ len v)
    (entries (Some {[ "A" := Slice [event "1" 1; event "2" 2;
                                    event "3" 3; event "4" 4] [] ]})) ∧
  ∃ m,
    UpcomingEvents
      {| events := Some {[ "A" := Slice [event "1" 1; event "2" 2;
                                         event "3" 3; event "4" 4] [] ]} |}
      = Value m ∧
    elems <$> m !! "A" = Some [event "1" 1; event "2" 2; event "3" 3].
Proof.
  assert (map_Forall (λ _ v, 3 ≤ len v)
            (entries (Some {[ "A" := Slice [event "1" 1; event "2" 2;
                                            event "3" 3; event "4" 4] [] ]})))
    as Hlong.
  { apply map_Forall_singleton. unfold len. simpl. lia. }
  split; [exact Hlong|].
  destruct (UpcomingEvents_three
              {| events := Some {[ "A" := Slice [event "1" 1; event "2" 2;
                                                 event "3" 3; event "4" 4]
                                                [] ]} |} Hlong)
    as (m & Hm & Hshown).
  exists m. split; [exact Hm|].
  apply (Hshown "A" (Slice [event "1" 1; event "2" 2;
                            event "3" 3; event "4" 4] [])).
  apply lookup_singleton_eq.
Defined.

Lemma UpcomingEvents_of_poll_witness :
  ∃ snap p' view v3,
    poll (H := stable) net_busy ["A"; "B"] (NewStore 60) startup
      = Ret snap p' ∧
    map_Forall (λ _ v, 3 ≤ len v) snap ∧
    UpcomingEvents {| events := Some snap |} = Value view ∧
    view !! "A" = Some v3 ∧
    elems v3 = [event "a2" 100; event "a4" 200; event "a3" 300].
Proof.
  assert (∃ snap p',
    poll (H := stable) net_busy ["A"; "B"] (NewStore 60) startup
      = Ret snap p' ∧
    snap = {[ "A" := Slice [event "a2" 100; event "a4" 200;
                            event "a3" 300; event "a1" 400] [];
              "B" := Slice [event "b2" 10; event "b3" 20; event "b1" 30]
                           [event "" 0] ]})
    as (snap & p' & Hret & Hsnap).
  { eexists _, _. split; [reflexivity|]. vm_compute. reflexivity. }
  assert (map_Forall (λ _ v, 3 ≤ len v) snap) as Hlong.
  { rewrite Hsnap. apply map_Forall_insert_2; [unfold len; simpl; lia|].
    apply map_Forall_singleton. unfold len. simpl. lia. }
  destruct (UpcomingEvents_of_poll net_busy ["A"; "B"] (NewStore 60) startup
              snap p' Hret Hlong) as (view & Hview & Hshown).
  destruct (Hshown "A" (Slice [event "a2" 100; event "a4" 200;
                               event "a3" 300; event "a1" 400] []))
    as (v3 & Hv3 & Helems & _).
  { rewrite Hsnap. apply lookup_insert_eq. }
  exists snap, p', view, v3.
  split; [exact Hret|]. split; [exact Hlong|]. split; [exact Hview|].
  split; [exact Hv3|exact Helems].
Defined.

(** The compiled-in sources, two of them answering and one with a body
    that does not decode: the cycle returns with the two, and logs the
    third. *)
Example poll_compiled_in_sources :
  ∃ p',
    poll (H := stable)
      (λ _ u, if decide (u = url "Denver-Go-Language-User-Group")
              then Ok (Malformed "EOF")
              else Ok (Json (Slice [event "9" 5] [])))
      meetupNames_init (NewStore 60) startup
    = Ret {[ "Boulder-Gophers" := Slice [event "9" 5] [];
             "Denver-Go-Programming-Language-Meetup"
               := Slice [event "9" 5] [] ]} p' ∧
    log_lines (history p')
      = ["error fetching events for Denver-Go-Language-User-Group: EOF"].
Proof. eexists. split; vm_compute; reflexivity. Qed.

End ExtraChecks.
